(** * Rank encoding and decoding of whitespace-delimited text

    A shallow embedding of [project5.cpp] (the encoder) and
    [project5_decompress.cpp] (encoder followed by decoder), and the
    properties of the rank table, the code sequence and the round trip.

    Conventions of the embedding.
    - [std::string] is [string]; [char] is [ascii].
    - [int] is [Z].  Signed overflow is undefined in C++, so there is no
      wrap-around to write out: the counts of [addToken] and the counter
      of [assign] are the ones of the programs as long as they stay
      within [int], which [no_int_overflow] shows they do on every input
      of fewer than [INT_MAX] tokens.  Every statement below about the
      value of a count or of a rank carries that bound as a hypothesis;
      the statements without it speak of keys, lengths and the shape of
      the output only.
    - [size_t] indices and sizes are [nat].
    - [std::unordered_map<string,int>] and [std::map<string,int>] are
      [gmap string Z].  The order in which the unordered map is traversed
      is unspecified: it is an explicit list [iteration], constrained by
      [iterates].
    - [cout] and [cerr] are lists of the chunks written with [<<]. *)

From Stdlib Require Import ZArith Ascii.
From stdpp Require Import gmap strings list fin_maps sorting.

Local Open Scope Z_scope.

(** ** Streams *)

Inductive chunk : Type :=
| Str (s : string)
| Int (z : Z)
| Endl.

Record outcome : Type := Outcome {
  cout : list chunk;
  cerr : list chunk;
  exit_code : Z
}.

(** ** Character classification *)

(** [isspace] of <cctype> in the "C" locale, the locale a program runs in
    when it never calls [setlocale]: space, \t, \n, \v, \f, \r, and no
    byte above 127. *)
Definition isspace (aChar : ascii) : bool :=
  match aChar with
  | "009" | "010" | "011" | "012" | "013" | " " => true
  | _ => false
  end%char.

(** ** The helper functions shared by both programs *)

(** [token.empty()] *)
Definition empty (token : string) : bool :=
  match token with
  | EmptyString => true
  | String _ _ => false
  end.

(** [addToken]: [tokenFrequency[token]++] creates the entry with value 0
    when it is absent, then increments it.  The count is the [int] of
    the source while it is below [2^31]; past that the increment of the
    source is undefined, and nothing is stated about its value. *)
Definition addToken (tokenFrequency : gmap string Z) (token : string)
  : gmap string Z :=
  if negb (empty token) then
    <[token := default 0 (tokenFrequency !! token) + 1]> tokenFrequency
  else tokenFrequency.

(** The state [processToken] writes to: the vector it appends to and the
    error stream. *)
Record encoding : Type := Encoding {
  encodedText : list Z;
  enc_cerr : list chunk
}.

Definition not_found (token : string) : list chunk :=
  [Str "Error: Token '"; Str token;
   Str "' not found in tokenPosition map."; Endl].

(** [processToken] *)
Definition processToken (tokenPosition : gmap string Z) (token : string)
    (st : encoding) : encoding :=
  if negb (empty token) then
    match tokenPosition !! token with
    | Some second =>
        Encoding (encodedText st ++ [second]) (enc_cerr st)
    | None =>
        Encoding (encodedText st) (enc_cerr st ++ not_found token)
    end
  else st.

(** The character loop of [main], written twice in each program with a
    different call in its body:
<<
    while (stream.get(aChar)) {
        if (isspace(aChar)) { emit(token); token.clear(); }
        else                { token += aChar; }
    }
    emit(token);
>> *)
Fixpoint scan {S : Type} (emit : S → string → S) (stream : string)
    (token : string) (st : S) : S :=
  match stream with
  | EmptyString => emit st token
  | String aChar rest =>
      if isspace aChar then scan emit rest "" (emit st token)
      else scan emit rest (token +:+ String aChar "") st
  end.

(** Step 2: the first pass. *)
Definition tokenFrequency (inputContent : string) : gmap string Z :=
  scan addToken inputContent "" ∅.

(** The lambda handed to [std::sort]. *)
Definition comp (a b : string * Z) : bool :=
  if negb (a.2 =? b.2) then a.2 >? b.2
  else String.ltb a.1 b.1.

(** [std::sort] is library code, given by its contract: the result is a
    permutation of the range, ordered so that [comp] never holds from a
    later element to an earlier one.  Insertion by [comp] is the
    executable representative; [std_sort_unique] shows that every list
    meeting the contract is this one. *)
Fixpoint sort_insert (x : string * Z) (l : list (string * Z))
  : list (string * Z) :=
  match l with
  | [] => [x]
  | y :: l' => if comp x y then x :: l else y :: sort_insert x l'
  end.

Fixpoint std_sort (l : list (string * Z)) : list (string * Z) :=
  match l with
  | [] => []
  | x :: l' => sort_insert x (std_sort l')
  end.

(** The order the C++ standard calls sorted with respect to [comp]. *)
Definition comp_sorted : list (string * Z) → Prop :=
  StronglySorted (λ a b, comp b a = false).

(** [iteration] is an order in which [tokenFrequency.begin() ..
    tokenFrequency.end()] may yield the entries of the map. *)
Definition iterates (m : gmap string Z) (iteration : list (string * Z))
  : Prop :=
  iteration ≡ₚ map_to_list m.

(** Step 4: [tokenPosition[pair.first] = position++] over [sortedTokens],
    with [position] starting at 1.  The counter is the [int] of the
    source while it is below [2^31]; past that the increment of the
    source is undefined, and nothing is stated about its value. *)
Definition assign (st : gmap string Z * Z) (pair : string * Z)
  : gmap string Z * Z :=
  (<[pair.1 := st.2]> st.1, st.2 + 1).

Definition tokenPosition (sortedTokens : list (string * Z))
  : gmap string Z :=
  (foldl assign (∅, 1) sortedTokens).1.

(** The second pass over the input. *)
Definition encode (tokenPosition : gmap string Z) (inputContent : string)
  : encoding :=
  scan (λ st token, processToken tokenPosition token st)
       inputContent "" (Encoding [] []).

(** ** The decoder of [project5_decompress.cpp] *)

(** [tokens.push_back(pair.first)] over [sortedTokens]. *)
Definition tokens (sortedTokens : list (string * Z)) : list string :=
  foldl (λ tokens pair, tokens ++ [pair.1]) [] sortedTokens.

(** The bounds check [position > 0 && position <= tokens.size()]; the
    second comparison converts [position] to [size_t], which keeps the
    value of a positive [int]. *)
Definition valid (tokens : list string) (position : Z) : bool :=
  (0 <? position) && (position <=? Z.of_nat (length tokens)).

(** The decoding loop, [n] iterations starting at index [i].  [inl] is
    the [return 1] taken at an invalid position; [inr] is the text in
    the string stream when the loop ends.  [encodedText.size() - 1] is
    evaluated inside the body only, where the size is at least 1, so the
    subtraction on [nat] is the one on [size_t]. *)
Fixpoint decode_loop (tokens : list string) (encodedText : list Z)
    (n i : nat) (decodedText : string) : Z + string :=
  match n with
  | O => inr decodedText
  | S n' =>
      let position := default 0 (encodedText !! i) in
      if valid tokens position then
        let decodedText :=
          decodedText +:+ default "" (tokens !! Z.to_nat (position - 1)) in
        let decodedText :=
          if (i <? length encodedText - 1)%nat then decodedText +:+ " "
          else decodedText in
        decode_loop tokens encodedText n' (S i) decodedText
      else inl position
  end.

Definition decode (tokens : list string) (encodedText : list Z)
  : Z + string :=
  decode_loop tokens encodedText (length encodedText) 0 "".

Module Decompress.

(** Step 6 and the final output: the [tokens] vector, the decoding loop,
    and either the decoded line on [cout] with exit status 0, or the
    message on [cerr] with exit status 1 and nothing on [cout].  [enc] is
    what Step 5 left behind. *)
Definition decode_and_print (sortedTokens : list (string * Z))
    (enc : encoding) : outcome :=
  let tokens := tokens sortedTokens in
  match decode tokens (encodedText enc) with
  | inr decodedText =>
      Outcome [Str decodedText; Endl] (enc_cerr enc) 0
  | inl position =>
      Outcome []
        (enc_cerr enc ++ [Str "Error: Invalid position "; Int position; Endl])
        1
  end.

(** [main] of [project5_decompress.cpp]. *)
Definition main (inputContent : string) (iteration : list (string * Z))
  : outcome :=
  let sortedTokens := std_sort iteration in
  let tokenPosition := tokenPosition sortedTokens in
  let enc := encode tokenPosition inputContent in
  decode_and_print sortedTokens enc.

End Decompress.

Module Project5.

(** Steps 5 and 6 and the [return 0] of [main]: the ranked tokens, the
    separator line, the second pass and the code sequence, for the
    vector and the lookup Steps 3 and 4 built. *)
Definition print_and_encode (sortedTokens : list (string * Z))
    (tokenPosition : gmap string Z) (inputContent : string) : outcome :=
  let ranked :=
    foldl (λ out pair, out ++ [Str pair.1; Str " "]) [] sortedTokens in
  let enc := encode tokenPosition inputContent in
  let code :=
    foldl (λ out position, out ++ [Int position; Str " "]) []
          (encodedText enc) in
  Outcome (ranked ++ [Endl; Str "**********"; Endl] ++ code ++ [Endl])
          (enc_cerr enc) 0.

(** [main] of [project5.cpp]. *)
Definition main (inputContent : string) (iteration : list (string * Z))
  : outcome :=
  let sortedTokens := std_sort iteration in
  let tokenPosition := tokenPosition sortedTokens in
  print_and_encode sortedTokens tokenPosition inputContent.

End Project5.

(** ** The token sequence of an input *)

(** The non-empty tokens the character loop hands to its body, in order. *)
Definition collect (T : list string) (token : string) : list string :=
  if negb (empty token) then T ++ [token] else T.

Definition tokenize (inputContent : string) : list string :=
  scan collect inputContent "" [].

(** Tokens separated by single spaces. *)
Fixpoint unwords (T : list string) : string :=
  match T with
  | [] => ""
  | [t] => t
  | t :: T' => t +:+ " " +:+ unwords T'
  end.

(** Number of occurrences of [t] in the token sequence [T]. *)
Definition occurrences (t : string) (T : list string) : Z :=
  Z.of_nat (length (filter (t =.) T)).

(** The lookup the decoder performs: rank to token, [None] outside the
    bounds check. *)
Definition rank_to_token (tokens : list string) (position : Z)
  : option string :=
  if valid tokens position then tokens !! Z.to_nat (position - 1) else None.

(** The token the decoder appends for a position that passed the bounds
    check: [tokens[position - 1]]. *)
Definition token_at (tokens : list string) (position : Z) : string :=
  default "" (tokens !! Z.to_nat (position - 1)).

(** The decoding loop as a recursion on the part of [encodedText] still
    to be read; [decode_loop_rest] relates it to [decode_loop]. *)
Fixpoint decode_rest (tokens : list string) (rest : list Z)
    (decodedText : string) : Z + string :=
  match rest with
  | [] => inr decodedText
  | position :: rest' =>
      if valid tokens position then
        decode_rest tokens rest'
          ((decodedText +:+ token_at tokens position)
             +:+ (if rest' is [] then "" else " "))
      else inl position
  end.

(** A token as the data model has it: not empty, no whitespace. *)
Fixpoint has_space (s : string) : bool :=
  match s with
  | EmptyString => false
  | String aChar s' => isspace aChar || has_space s'
  end.

Definition is_token (t : string) : Prop :=
  empty t = false ∧ has_space t = false.

(** Membership of [r] in the interval [[1, D]]. *)
Definition in_range (D : nat) (r : Z) : bool :=
  (1 <=? r) && (r <=? Z.of_nat D).

(** [INT_MAX] for the 32-bit [int] of the platforms the programs target. *)
Definition INT_MAX : Z := 2147483647.

(** The sum of the counts of a vector of (token, count) pairs. *)
Definition total (l : list (string * Z)) : Z :=
  foldr (λ pair acc, pair.2 + acc) 0 l.


Definition example_text : string := "the cat sat on the mat the cat ran".

Example tokenize_example :
  tokenize example_text
  = ["the"; "cat"; "sat"; "on"; "the"; "mat"; "the"; "cat"; "ran"].
Proof. vm_compute. reflexivity. Qed.

Example main_example :
  Decompress.main example_text (map_to_list (tokenFrequency example_text))
  = Outcome [Str example_text; Endl] [] 0.
Proof. vm_compute. reflexivity. Qed.

Example encode_example :
  let sortedTokens := std_sort (map_to_list (tokenFrequency example_text)) in
  sortedTokens.*1 = ["the"; "cat"; "mat"; "on"; "ran"; "sat"] ∧
  encodedText (encode (tokenPosition sortedTokens) example_text)
  = [1; 2; 6; 4; 1; 3; 1; 2; 5].
Proof. vm_compute. split; reflexivity. Qed.

(** ** The comparator is a strict total order on pairs *)

Section string_order.

Lemma ascii_compare_refl a : Ascii.compare a a = Eq.
Proof. unfold Ascii.compare. apply N.compare_refl. Qed.

Lemma ascii_compare_lt_trans a b c :
  Ascii.compare a b = Lt → Ascii.compare b c = Lt → Ascii.compare a c = Lt.
Proof. unfold Ascii.compare. rewrite !N.compare_lt_iff. lia. Qed.

Lemma string_compare_refl s : String.compare s s = Eq.
Proof.
  induction s as [|a s IH]; simpl; [done|].
  by rewrite ascii_compare_refl.
Qed.

Lemma string_compare_lt_trans s1 s2 s3 :
  String.compare s1 s2 = Lt → String.compare s2 s3 = Lt →
  String.compare s1 s3 = Lt.
Proof.
  revert s2 s3.
  induction s1 as [|a s1 IH]; intros [|b s2] [|c s3]; simpl; try done.
  destruct (Ascii.compare a b) eqn:Hab; try done;
    destruct (Ascii.compare b c) eqn:Hbc; try done; intros H1 H2.
  - apply Ascii.compare_eq_iff in Hab, Hbc. subst.
    rewrite ascii_compare_refl. eauto.
  - apply Ascii.compare_eq_iff in Hab. subst. by rewrite Hbc.
  - apply Ascii.compare_eq_iff in Hbc. subst. by rewrite Hab.
  - by rewrite (ascii_compare_lt_trans a b c).
Qed.

Lemma ltb_irrefl s : String.ltb s s = false.
Proof. unfold String.ltb. by rewrite string_compare_refl. Qed.

Lemma ltb_trans s1 s2 s3 :
  String.ltb s1 s2 = true → String.ltb s2 s3 = true →
  String.ltb s1 s3 = true.
Proof.
  unfold String.ltb.
  destruct (String.compare s1 s2) eqn:H12; try done.
  destruct (String.compare s2 s3) eqn:H23; try done.
  by rewrite (string_compare_lt_trans s1 s2 s3).
Qed.

Lemma ltb_asym s1 s2 : String.ltb s1 s2 = true → String.ltb s2 s1 = false.
Proof.
  unfold String.ltb. rewrite (String.compare_antisym s1 s2).
  by destruct (String.compare s2 s1).
Qed.

Lemma ltb_total s1 s2 :
  s1 ≠ s2 → String.ltb s1 s2 = true ∨ String.ltb s2 s1 = true.
Proof.
  intros Hne. unfold String.ltb. rewrite (String.compare_antisym s1 s2).
  destruct (String.compare s2 s1) eqn:H; simpl; auto.
  by apply String.compare_eq_iff in H.
Qed.

End string_order.

Section comparator.

Implicit Types a b c : string * Z.

Lemma comp_spec a b :
  comp a b = true ↔
  b.2 < a.2 ∨ (a.2 = b.2 ∧ String.ltb a.1 b.1 = true).
Proof.
  unfold comp. destruct (Z.eqb_spec a.2 b.2) as [Heq|Hne]; cbn [negb].
  - split; [auto | intros [?|[_ ?]]; [lia | done]].
  - rewrite Z.gtb_lt. split; [auto | intros [?|[? _]]; done].
Qed.

Lemma comp_irrefl a : comp a a = false.
Proof.
  apply not_true_is_false. rewrite comp_spec, ltb_irrefl.
  intros [?|[_ ?]]; [lia | done].
Qed.

Lemma comp_asym a b : comp a b = true → comp b a = false.
Proof.
  intros H. apply not_true_is_false. revert H. rewrite !comp_spec.
  intros [?|[? H1]] [?|[? H2]]; try lia.
  apply ltb_asym in H1. congruence.
Qed.

Lemma comp_trans a b c :
  comp a b = true → comp b c = true → comp a c = true.
Proof.
  rewrite !comp_spec. intros [?|[? H1]] [?|[? H2]]; try (left; lia).
  right. split; [lia|]. by apply (ltb_trans _ b.1).
Qed.

(** No two distinct pairs tie: the order is total, so the sorted
    arrangement of a range is unique. *)
Lemma comp_total a b : a ≠ b → comp a b = true ∨ comp b a = true.
Proof.
  destruct a as [s1 n1], b as [s2 n2]. intros Hne.
  rewrite !comp_spec. simpl.
  destruct (Z.lt_trichotomy n1 n2) as [?|[->|?]]; [auto..| |auto].
  destruct (ltb_total s1 s2) as [?|?]; [congruence|auto..].
Qed.

Lemma comp_false_trans a b c :
  comp b a = false → comp c b = false → comp c a = false.
Proof.
  intros Hab Hbc. destruct (decide (a = b)) as [->|Hne]; [done|].
  destruct (decide (b = c)) as [->|Hne']; [done|].
  destruct (comp_total a b Hne) as [H1|H1]; [|congruence].
  destruct (comp_total b c Hne') as [H2|H2]; [|congruence].
  apply comp_asym. by apply (comp_trans _ b).
Qed.

Global Instance comp_le_trans :
  Transitive (λ a b, comp b a = false).
Proof. intros a b c. apply comp_false_trans. Qed.

Global Instance comp_le_antisym :
  AntiSymm (=) (λ a b, comp b a = false).
Proof.
  intros a b H1 H2. destruct (decide (a = b)) as [|Hne]; [done|].
  destruct (comp_total a b Hne); congruence.
Qed.

End comparator.

(** ** [std_sort] meets the contract of [std::sort], and nothing else does *)

Section sorting.

Implicit Types l : list (string * Z).

Lemma sort_insert_perm x l : sort_insert x l ≡ₚ x :: l.
Proof.
  induction l as [|y l IH]; simpl; [done|].
  destruct (comp x y); [done|]. rewrite IH. apply Permutation_swap.
Qed.

Lemma std_sort_perm l : std_sort l ≡ₚ l.
Proof.
  induction l as [|x l IH]; simpl; [done|].
  by rewrite sort_insert_perm, IH.
Qed.

Lemma sort_insert_sorted x l :
  comp_sorted l → comp_sorted (sort_insert x l).
Proof.
  unfold comp_sorted. induction 1 as [|y l Hl IH Hy]; simpl.
  { repeat constructor. }
  destruct (comp x y) eqn:Hxy.
  - constructor; [by constructor|]. constructor.
    + by apply comp_asym.
    + eapply Forall_impl; [exact Hy|]. simpl. intros z Hz.
      apply (comp_false_trans x y z); [by apply comp_asym|done].
  - constructor; [done|].
    rewrite sort_insert_perm. by constructor.
Qed.

Lemma std_sort_sorted l : comp_sorted (std_sort l).
Proof.
  induction l as [|x l IH]; simpl; [constructor|].
  by apply sort_insert_sorted.
Qed.

Lemma std_sort_unique l l' :
  l' ≡ₚ l → comp_sorted l' → l' = std_sort l.
Proof.
  intros Hp Hs. apply (StronglySorted_unique _ _ _ Hs (std_sort_sorted l)).
  by rewrite std_sort_perm.
Qed.

Lemma std_sort_order_irrelevant l1 l2 :
  l1 ≡ₚ l2 → std_sort l1 = std_sort l2.
Proof.
  intros Hp. apply std_sort_unique; [|apply std_sort_sorted].
  by rewrite std_sort_perm.
Qed.

End sorting.


(** ** The character loop is a fold over the token sequence *)

Section scanning.

Context {S : Type} (emit : S → string → S).
Hypothesis emit_empty : ∀ st, emit st "" = st.

Lemma collect_app acc token : collect acc token = acc ++ collect [] token.
Proof.
  unfold collect. destruct (negb (empty token)); by rewrite ?app_nil_r.
Qed.

Lemma scan_collect_app stream token acc :
  scan collect stream token acc = acc ++ scan collect stream token [].
Proof.
  revert token acc.
  induction stream as [|aChar rest IH]; intros token acc; simpl.
  - apply collect_app.
  - destruct (isspace aChar); [|apply IH].
    rewrite IH, (IH _ (collect [] token)), app_assoc.
    by rewrite <-collect_app.
Qed.

Lemma emit_collect st token : foldl emit st (collect [] token) = emit st token.
Proof. destruct token; simpl; [by rewrite emit_empty|done]. Qed.

Lemma scan_foldl stream token st :
  scan emit stream token st = foldl emit st (scan collect stream token []).
Proof.
  revert token st.
  induction stream as [|aChar rest IH]; intros token st; simpl.
  - by rewrite emit_collect.
  - destruct (isspace aChar); [|apply IH].
    by rewrite IH, (scan_collect_app _ _ (collect [] token)), foldl_app,
      emit_collect.
Qed.

End scanning.

Lemma scan_collect_nonempty stream token :
  Forall (λ t, empty t = false) (scan collect stream token []).
Proof.
  revert token. induction stream as [|aChar rest IH]; intros token; simpl.
  - destruct token; repeat constructor.
  - destruct (isspace aChar); [|apply IH].
    rewrite scan_collect_app. apply Forall_app. split; [|apply IH].
    destruct token; repeat constructor.
Qed.

Lemma tokenize_nonempty inputContent :
  Forall (λ t, empty t = false) (tokenize inputContent).
Proof. apply scan_collect_nonempty. Qed.

Lemma tokenFrequency_foldl inputContent :
  tokenFrequency inputContent = foldl addToken ∅ (tokenize inputContent).
Proof. unfold tokenFrequency, tokenize. by apply scan_foldl. Qed.

Lemma encode_foldl tokenPosition inputContent :
  encode tokenPosition inputContent
  = foldl (λ st token, processToken tokenPosition token st)
          (Encoding [] []) (tokenize inputContent).
Proof. unfold encode, tokenize. by apply scan_foldl. Qed.

(** ** The frequency map holds the occurrence counts *)

Lemma occurrences_cons t x T :
  occurrences t (x :: T)
  = (if decide (t = x) then 1 else 0) + occurrences t T.
Proof.
  unfold occurrences. rewrite filter_cons.
  case_decide; simpl; lia.
Qed.

Lemma occurrences_pos t T : t ∈ T → 0 < occurrences t T.
Proof.
  induction T as [|x T IH]; [by intros ?%elem_of_nil|].
  rewrite elem_of_cons, occurrences_cons. intros [->|Hin].
  - rewrite decide_True by done. unfold occurrences. lia.
  - specialize (IH Hin). case_decide; lia.
Qed.

Lemma occurrences_le t T : 0 ≤ occurrences t T ≤ Z.of_nat (length T).
Proof.
  unfold occurrences. pose proof (length_filter (t =.) T). lia.
Qed.

Lemma addToken_lookup m token t :
  empty token = false →
  addToken m token !! t
  = if decide (token = t) then Some (default 0 (m !! t) + 1) else m !! t.
Proof.
  intros He. unfold addToken. rewrite He. simpl.
  case_decide as Heq; [subst; by rewrite lookup_insert_eq|].
  by rewrite lookup_insert_ne.
Qed.

Lemma foldl_addToken_lookup T m t :
  Forall (λ t, empty t = false) T →
  foldl addToken m T !! t
  = if decide (is_Some (m !! t) ∨ t ∈ T)
    then Some (default 0 (m !! t) + occurrences t T) else None.
Proof.
  intros HT. revert m. induction HT as [|x T Hx _ IH]; intros m; simpl.
  - unfold occurrences. simpl. case_decide as H.
    + destruct H as [[c Hc]|H]; [|by apply elem_of_nil in H].
      rewrite Hc. simpl. f_equal. lia.
    + destruct (m !! t) eqn:Hm; [|done]. destruct H. eauto.
  - rewrite IH, (addToken_lookup _ _ _ Hx), occurrences_cons.
    destruct (decide (x = t)) as [->|Hne].
    + rewrite decide_True by eauto. rewrite decide_True by (right; left).
      rewrite decide_True by done. simpl. f_equal. lia.
    + rewrite (decide_False (P := t = x)) by done.
      rewrite Z.add_0_l. apply decide_ext.
      rewrite elem_of_cons.
      split; [tauto | intros [?|[?|?]]; [tauto | congruence | tauto]].
Qed.

Lemma tokenFrequency_lookup inputContent t :
  tokenFrequency inputContent !! t
  = if decide (t ∈ tokenize inputContent)
    then Some (occurrences t (tokenize inputContent)) else None.
Proof.
  rewrite tokenFrequency_foldl, foldl_addToken_lookup
    by apply tokenize_nonempty.
  rewrite lookup_empty. simpl.
  repeat case_decide; try done.
  - destruct H as [[? ?]|?]; done.
  - destruct H. by right.
Qed.


(** ** The two lookups built from [sortedTokens] *)

Section rank_table.

Implicit Types (l : list (string * Z)) (m : gmap string Z).

Lemma tokens_acc l acc :
  foldl (λ tokens pair, tokens ++ [pair.1]) acc l = acc ++ l.*1.
Proof.
  revert acc. induction l as [|x l IH]; intros acc; simpl.
  - by rewrite app_nil_r.
  - by rewrite IH, <-app_assoc.
Qed.

Lemma tokens_fst l : tokens l = l.*1.
Proof. apply tokens_acc. Qed.

Lemma length_tokens l : length (tokens l) = length l.
Proof. by rewrite tokens_fst, length_fmap. Qed.

Lemma foldl_assign_position l m p :
  (foldl assign (m, p) l).2 = p + Z.of_nat (length l).
Proof.
  revert m p. induction l as [|x l IH]; intros m p; simpl; [lia|].
  unfold assign at 2. simpl. rewrite IH. lia.
Qed.

Lemma foldl_assign_lookup l m p t r :
  NoDup (l.*1) →
  (foldl assign (m, p) l).1 !! t = Some r ↔
  (∃ i, l.*1 !! i = Some t ∧ r = p + Z.of_nat i) ∨
  ((t ∉ l.*1) ∧ m !! t = Some r).
Proof.
  revert m p. induction l as [|[k v] l IH]; intros m p Hnd; simpl.
  { split.
    - intros Hm. right. split; [apply not_elem_of_nil|done].
    - intros [(i & Hi & _)|[_ Hm]]; [by rewrite lookup_nil in Hi|done]. }
  apply NoDup_cons in Hnd as [Hk Hnd].
  unfold assign at 2. simpl. rewrite IH by done. split.
  - intros [(i & Hi & ->)|[Hnot Hm]].
    + left. exists (Datatypes.S i). split; [done|lia].
    + rewrite lookup_insert in Hm. case_decide as Hkt.
      * left. exists 0%nat. simplify_eq. split; [done|lia].
      * right. split; [|done]. rewrite not_elem_of_cons. auto.
  - intros [(i & Hi & ->)|[Hnot Hm]].
    + destruct i as [|i]; simpl in Hi.
      * simplify_eq. right. split; [done|].
        rewrite lookup_insert_eq. f_equal. lia.
      * left. exists i. split; [done|lia].
    + apply not_elem_of_cons in Hnot as [Hne Hnot].
      right. split; [done|]. by rewrite lookup_insert_ne.
Qed.

Lemma tokenPosition_lookup l t r :
  NoDup (l.*1) →
  tokenPosition l !! t = Some r ↔
  ∃ i, l.*1 !! i = Some t ∧ r = 1 + Z.of_nat i.
Proof.
  intros Hnd. unfold tokenPosition. rewrite foldl_assign_lookup by done.
  split; [|by left]. intros [?|[_ Hm]]; [done|].
  by rewrite lookup_empty in Hm.
Qed.

Lemma rank_to_token_Some tokens r t :
  rank_to_token tokens r = Some t ↔
  ∃ i, tokens !! i = Some t ∧ r = 1 + Z.of_nat i.
Proof.
  unfold rank_to_token, valid. split.
  - destruct (0 <? r) eqn:H0; simpl; [|done].
    destruct (r <=? _) eqn:H1; [|done]. intros Ht.
    exists (Z.to_nat (r - 1)). split; [done|]. lia.
  - intros (i & Hi & ->). pose proof (lookup_lt_Some _ _ _ Hi).
    rewrite (proj2 (Z.ltb_lt _ _)), (proj2 (Z.leb_le _ _)) by lia. simpl.
    by replace (Z.to_nat (1 + Z.of_nat i - 1)) with i by lia.
Qed.

Lemma tokenPosition_rank_to_token l t r :
  NoDup (l.*1) →
  tokenPosition l !! t = Some r ↔ rank_to_token (tokens l) r = Some t.
Proof.
  intros Hnd.
  by rewrite tokenPosition_lookup, rank_to_token_Some, tokens_fst.
Qed.

Lemma tokenPosition_zip l :
  NoDup (l.*1) →
  tokenPosition l
  = list_to_map (zip l.*1 (seqZ 1 (Z.of_nat (length l)))).
Proof.
  intros Hnd. apply map_eq. intros t. apply option_eq. intros r.
  assert (length l.*1 = length (seqZ 1 (Z.of_nat (length l)))) as Hlen.
  { rewrite length_fmap, length_seqZ. lia. }
  rewrite tokenPosition_lookup by done.
  rewrite <-elem_of_list_to_map by (by rewrite fst_zip by lia).
  rewrite list_elem_of_lookup. split.
  - intros (i & Hi & ->). exists i.
    apply lookup_zip_with_Some. exists t, (1 + Z.of_nat i).
    split_and!; [done..|].
    apply lookup_seqZ. split; [done|].
    apply lookup_lt_Some in Hi. rewrite length_fmap in Hi. lia.
  - intros (i & Hi). apply lookup_zip_with_Some in Hi
      as (t' & r' & ? & Ht & Hr). simplify_eq.
    apply lookup_seqZ in Hr as [-> _]. eauto.
Qed.

Lemma tokenPosition_values l :
  NoDup (l.*1) →
  (map_to_list (tokenPosition l)).*2 ≡ₚ seqZ 1 (Z.of_nat (length l)).
Proof.
  intros Hnd.
  assert (length l.*1 = length (seqZ 1 (Z.of_nat (length l)))) as Hlen.
  { rewrite length_fmap, length_seqZ. lia. }
  rewrite tokenPosition_zip by done.
  rewrite map_to_list_to_map by (by rewrite fst_zip by lia).
  by rewrite snd_zip by lia.
Qed.

Lemma size_tokenPosition l :
  NoDup (l.*1) → size (tokenPosition l) = length l.
Proof.
  intros Hnd.
  rewrite <-length_map_to_list, <-(length_fmap snd).
  rewrite tokenPosition_values by done. rewrite length_seqZ. lia.
Qed.

End rank_table.


(** ** Strings *)

Lemma append_nil_r s : s +:+ "" = s.
Proof.
  induction s as [|a s IH]; [done|].
  unfold String.app. simpl. f_equal. apply IH.
Qed.

Lemma append_assoc s1 s2 s3 : (s1 +:+ s2) +:+ s3 = s1 +:+ (s2 +:+ s3).
Proof.
  induction s1 as [|a s1 IH]; [done|].
  unfold String.app in *. simpl. f_equal. apply IH.
Qed.

(** ** The encoding pass over a token sequence *)

Section encoding_pass.

Context (tokenPosition : gmap string Z).

Lemma foldl_processToken (T : list string) st :
  Forall (λ t, empty t = false) T →
  foldl (λ st token, processToken tokenPosition token st) st T
  = Encoding
      (encodedText st ++ omap (λ t, tokenPosition !! t) T)
      (enc_cerr st
         ++ mjoin (not_found <$> filter (λ t, tokenPosition !! t = None) T)).
Proof.
  intros HT. revert st. induction HT as [|x T Hx _ IH]; intros st; simpl.
  - destruct st. simpl. by rewrite !app_nil_r.
  - rewrite IH. unfold processToken. rewrite Hx. simpl.
    rewrite filter_cons. destruct (tokenPosition !! x) eqn:Hl; simpl.
    + by rewrite <-app_assoc.
    + by rewrite <-!app_assoc.
Qed.

Lemma omap_total (T : list string) :
  (∀ t, t ∈ T → is_Some (tokenPosition !! t)) →
  omap (λ t, tokenPosition !! t) T
  = (λ t, default 0 (tokenPosition !! t)) <$> T.
Proof.
  induction T as [|x T IH]; intros Hall; simpl; [done|].
  destruct (Hall x) as [r Hr]; [left|]. rewrite Hr. simpl. f_equal.
  apply IH. intros t Ht. apply Hall. by right.
Qed.

Lemma filter_total (T : list string) :
  (∀ t, t ∈ T → is_Some (tokenPosition !! t)) →
  filter (λ t, tokenPosition !! t = None) T = [].
Proof.
  induction T as [|x T IH]; intros Hall; [done|]. rewrite filter_cons.
  destruct (Hall x) as [r Hr]; [left|].
  rewrite decide_False by congruence. apply IH. intros t Ht.
  apply Hall. by right.
Qed.

End encoding_pass.

(** ** The decoding loop *)

Section decoding.

Context (tokens : list string).

Lemma decode_loop_rest pre rest decodedText :
  decode_loop tokens (pre ++ rest) (length rest) (length pre) decodedText
  = decode_rest tokens rest decodedText.
Proof.
  revert pre decodedText.
  induction rest as [|position rest IH]; intros pre decodedText; [done|].
  simpl. rewrite lookup_app_r, Nat.sub_diag by lia. simpl.
  destruct (valid tokens position); [|done]. fold (token_at tokens position).
  specialize (IH (pre ++ [position])).
  rewrite <-app_assoc, length_app in IH. simpl in IH.
  rewrite Nat.add_1_r in IH. rewrite IH. f_equal.
  rewrite length_app. simpl. destruct rest as [|position' rest]; simpl.
  - rewrite (proj2 (Nat.ltb_ge _ _)) by lia. by rewrite append_nil_r.
  - by rewrite (proj2 (Nat.ltb_lt _ _)) by lia.
Qed.

Lemma decode_decode_rest encodedText :
  decode tokens encodedText = decode_rest tokens encodedText "".
Proof. apply (decode_loop_rest []). Qed.

Lemma decode_rest_valid rest decodedText :
  Forall (λ r, valid tokens r = true) rest →
  decode_rest tokens rest decodedText
  = inr (decodedText +:+ unwords (token_at tokens <$> rest)).
Proof.
  intros Hv. revert decodedText.
  induction Hv as [|r rest Hr Hv IH]; intros decodedText; simpl.
  - by rewrite append_nil_r.
  - rewrite Hr, IH. f_equal. destruct rest as [|r' rest]; simpl.
    + by rewrite !append_nil_r.
    + by rewrite !append_assoc.
Qed.

Lemma decode_rest_invalid pre r post decodedText :
  Forall (λ r, valid tokens r = true) pre →
  valid tokens r = false →
  decode_rest tokens (pre ++ r :: post) decodedText = inl r.
Proof.
  intros Hv Hr. revert decodedText.
  induction Hv as [|r' pre Hr' Hv IH]; intros decodedText; simpl.
  - by rewrite Hr.
  - by rewrite Hr', IH.
Qed.

Lemma decode_valid encodedText :
  Forall (λ r, valid tokens r = true) encodedText →
  decode tokens encodedText = inr (unwords (token_at tokens <$> encodedText)).
Proof.
  intros Hv. by rewrite decode_decode_rest, decode_rest_valid.
Qed.

Lemma decode_invalid pre r post :
  Forall (λ r, valid tokens r = true) pre →
  valid tokens r = false →
  decode tokens (pre ++ r :: post) = inl r.
Proof. intros. by rewrite decode_decode_rest, decode_rest_invalid. Qed.

(** A code sequence with an invalid rank splits at its first one. *)
Lemma first_invalid encodedText :
  ¬ Forall (λ r, valid tokens r = true) encodedText →
  ∃ pre r post,
    encodedText = pre ++ r :: post ∧
    Forall (λ r, valid tokens r = true) pre ∧ valid tokens r = false.
Proof.
  induction encodedText as [|r code IH]; intros Hn.
  { destruct Hn. constructor. }
  destruct (valid tokens r) eqn:Hr.
  - destruct IH as (pre & r' & post & -> & Hpre & Hr').
    { intros Hall. apply Hn. by constructor. }
    exists (r :: pre), r', post. split_and!; [done| |done].
    by constructor.
  - exists [], r, code. split_and!; [done|constructor|done].
Qed.

End decoding.


(** ** Sorted lists and positions *)

Lemma comp_sorted_lookup (l : list (string * Z)) i j a b :
  comp_sorted l → l !! i = Some a → l !! j = Some b → (i < j)%nat →
  comp b a = false.
Proof.
  intros Hs. revert i j. induction Hs as [|x l Hs IH Hx]; intros i j Hi Hj Hlt.
  { by rewrite lookup_nil in Hi. }
  destruct j as [|j]; [lia|]. simpl in Hj. destruct i as [|i]; simpl in Hi.
  - simplify_eq. rewrite Forall_forall in Hx. apply Hx.
    by apply list_elem_of_lookup_2 in Hj.
  - apply (IH i j); [done..|lia].
Qed.

Lemma comp_sorted_index (l : list (string * Z)) i j a b :
  comp_sorted l → NoDup l → l !! i = Some a → l !! j = Some b →
  (i < j)%nat ↔ comp a b = true.
Proof.
  intros Hs Hnd Hi Hj. split.
  - intros Hlt. pose proof (comp_sorted_lookup l i j a b Hs Hi Hj Hlt) as Hba.
    destruct (comp_total a b) as [?|?]; [|done|congruence].
    intros ->. pose proof (NoDup_lookup _ _ _ _ Hnd Hi Hj). lia.
  - intros Hab. destruct (Nat.lt_trichotomy i j) as [?|[->|Hgt]]; [done|..].
    + simplify_eq. by rewrite comp_irrefl in Hab.
    + pose proof (comp_sorted_lookup l j i b a Hs Hj Hi Hgt). congruence.
Qed.

(** ** The pipeline on one input *)

Section pipeline.

Context (inputContent : string) (iteration : list (string * Z)).
Hypothesis Hit : iterates (tokenFrequency inputContent) iteration.

Lemma sortedTokens_perm :
  std_sort iteration ≡ₚ map_to_list (tokenFrequency inputContent).
Proof. by rewrite std_sort_perm. Qed.

Lemma sortedTokens_NoDup_fst : NoDup ((std_sort iteration).*1).
Proof. rewrite sortedTokens_perm. apply NoDup_fst_map_to_list. Qed.

Lemma sortedTokens_NoDup : NoDup (std_sort iteration).
Proof. eapply NoDup_fmap_1, sortedTokens_NoDup_fst. Qed.

Lemma elem_of_sortedTokens t c :
  (t, c) ∈ std_sort iteration ↔
  t ∈ tokenize inputContent ∧ c = occurrences t (tokenize inputContent).
Proof.
  rewrite sortedTokens_perm, elem_of_map_to_list, tokenFrequency_lookup.
  case_decide as Hin.
  - split; [intros [= <-]; done | intros [_ ->]; done].
  - split; [done | intros [? _]; done].
Qed.

Lemma elem_of_sortedTokens_fst t :
  t ∈ (std_sort iteration).*1 ↔ t ∈ tokenize inputContent.
Proof.
  rewrite list_elem_of_fmap. split.
  - intros ([t' c] & -> & Hin). by apply elem_of_sortedTokens in Hin as [? _].
  - intros Hin. exists (t, occurrences t (tokenize inputContent)).
    split; [done|].
    by apply elem_of_sortedTokens.
Qed.

Lemma sortedTokens_distinct :
  (std_sort iteration).*1 ≡ₚ remove_dups (tokenize inputContent).
Proof.
  apply NoDup_Permutation.
  - apply sortedTokens_NoDup_fst.
  - apply NoDup_remove_dups.
  - intros t. by rewrite elem_of_sortedTokens_fst, elem_of_remove_dups.
Qed.

Lemma length_sortedTokens :
  length (std_sort iteration) = length (remove_dups (tokenize inputContent)).
Proof. by rewrite <-sortedTokens_distinct, length_fmap. Qed.

Lemma length_sortedTokens_size :
  length (std_sort iteration) = size (tokenFrequency inputContent).
Proof. by rewrite sortedTokens_perm, length_map_to_list. Qed.

Lemma tokenPosition_is_Some t :
  t ∈ tokenize inputContent →
  is_Some (tokenPosition (std_sort iteration) !! t).
Proof.
  intros Hin. apply elem_of_sortedTokens_fst in Hin.
  apply list_elem_of_lookup in Hin as [i Hi].
  exists (1 + Z.of_nat i).
  apply tokenPosition_lookup; [apply sortedTokens_NoDup_fst|eauto].
Qed.

Lemma tokenPosition_range t r :
  tokenPosition (std_sort iteration) !! t = Some r →
  1 ≤ r ≤ Z.of_nat (length (std_sort iteration)) ∧
  valid (tokens (std_sort iteration)) r = true ∧
  token_at (tokens (std_sort iteration)) r = t ∧
  t ∈ tokenize inputContent.
Proof.
  intros Hr.
  apply tokenPosition_lookup in Hr as (i & Hi & ->);
    [|apply sortedTokens_NoDup_fst].
  pose proof (lookup_lt_Some _ _ _ Hi) as Hlt. rewrite length_fmap in Hlt.
  split; [lia|]. split_and!.
  - unfold valid. rewrite length_tokens.
    apply andb_true_iff. rewrite Z.ltb_lt, Z.leb_le. lia.
  - unfold token_at. rewrite tokens_fst.
    replace (Z.to_nat (1 + Z.of_nat i - 1)) with i by lia. by rewrite Hi.
  - apply elem_of_sortedTokens_fst. by apply list_elem_of_lookup_2 in Hi.
Qed.

Lemma encode_pipeline :
  encode (tokenPosition (std_sort iteration)) inputContent
  = Encoding
      ((λ t, default 0 (tokenPosition (std_sort iteration) !! t))
         <$> tokenize inputContent) [].
Proof.
  rewrite encode_foldl, foldl_processToken by apply tokenize_nonempty.
  simpl.
  rewrite omap_total, filter_total by apply tokenPosition_is_Some. done.
Qed.

Lemma encodedText_valid :
  Forall (λ r, valid (tokens (std_sort iteration)) r = true)
    (encodedText (encode (tokenPosition (std_sort iteration)) inputContent)).
Proof.
  rewrite encode_pipeline. simpl. apply Forall_fmap, Forall_forall.
  intros t Hin. simpl.
  destruct (tokenPosition_is_Some t Hin) as [r Hr]. rewrite Hr. simpl.
  by apply tokenPosition_range in Hr as (_ & ? & _).
Qed.

Lemma token_at_encodedText :
  token_at (tokens (std_sort iteration))
    <$> encodedText (encode (tokenPosition (std_sort iteration)) inputContent)
  = (tokenize inputContent).
Proof.
  rewrite encode_pipeline. simpl. rewrite <-list_fmap_compose.
  rewrite <-(list_fmap_id (tokenize inputContent)) at 2.
  apply Forall_fmap_ext, Forall_forall.
  intros t Hin. simpl.
  destruct (tokenPosition_is_Some t Hin) as [r Hr]. rewrite Hr. simpl.
  by apply tokenPosition_range in Hr as (_ & _ & ? & _).
Qed.

Lemma decode_pipeline :
  decode (tokens (std_sort iteration))
    (encodedText (encode (tokenPosition (std_sort iteration)) inputContent))
  = inr (unwords (tokenize inputContent)).
Proof.
  rewrite decode_valid by apply encodedText_valid.
  by rewrite token_at_encodedText.
Qed.

Lemma main_pipeline :
  Decompress.main inputContent iteration
  = Outcome [Str (unwords (tokenize inputContent)); Endl] [] 0.
Proof.
  unfold Decompress.main, Decompress.decode_and_print.
  rewrite decode_pipeline.
  by rewrite encode_pipeline.
Qed.

End pipeline.


(** ** Every token sequence is the token sequence of an input *)

Lemma append_cons a s1 s2 : String a s1 +:+ s2 = String a (s1 +:+ s2).
Proof. done. Qed.

Lemma has_space_app s1 s2 :
  has_space (s1 +:+ s2) = has_space s1 || has_space s2.
Proof.
  induction s1 as [|a s1 IH]; [done|].
  rewrite append_cons. simpl. by rewrite IH, orb_assoc.
Qed.

Lemma scan_collect_tokens stream token :
  has_space token = false →
  Forall is_token (scan collect stream token []).
Proof.
  revert token. induction stream as [|aChar rest IH]; intros token Hs; simpl.
  - destruct token; repeat constructor. done.
  - destruct (isspace aChar) eqn:Hc.
    + rewrite scan_collect_app. apply Forall_app. split; [|by apply IH].
      destruct token; repeat constructor. done.
    + apply IH. rewrite has_space_app. simpl. by rewrite Hs, Hc.
Qed.

Lemma tokenize_tokens inputContent : Forall is_token (tokenize inputContent).
Proof. by apply scan_collect_tokens. Qed.

Lemma scan_collect_word t rest token acc :
  has_space t = false →
  scan collect (t +:+ rest) token acc = scan collect rest (token +:+ t) acc.
Proof.
  revert token. induction t as [|a t IH]; intros token; simpl.
  - intros _. by rewrite append_nil_r.
  - intros [Ha Ht]%orb_false_elim.
    rewrite Ha, IH by done. by rewrite append_assoc.
Qed.

Lemma scan_collect_unwords T acc :
  Forall is_token T → scan collect (unwords T) "" acc = acc ++ T.
Proof.
  intros HT. revert acc.
  induction HT as [|t T [Ht Hs] HT IH]; intros acc; simpl.
  - by rewrite app_nil_r.
  - destruct T as [|t' T].
    + rewrite <-(append_nil_r t) at 1. rewrite scan_collect_word by done.
      change ("" +:+ t) with t. simpl. unfold collect. by rewrite Ht.
    + rewrite scan_collect_word by done. change ("" +:+ t) with t.
      simpl scan. rewrite IH. unfold collect. rewrite Ht. simpl.
      by rewrite <-app_assoc.
Qed.

Lemma tokenize_unwords T : Forall is_token T → tokenize (unwords T) = T.
Proof. intros HT. by apply (scan_collect_unwords T []). Qed.

(** ** No [int] overflows on inputs of fewer than [INT_MAX] tokens *)

Lemma length_remove_dups_le (T : list string) :
  (length (remove_dups T) ≤ length T)%nat.
Proof.
  induction T as [|x T IH]; simpl; [done|].
  case_decide; simpl; lia.
Qed.

Lemma counts_in_int_range inputContent t c :
  Z.of_nat (length (tokenize inputContent)) < INT_MAX →
  tokenFrequency inputContent !! t = Some c →
  0 < c < INT_MAX.
Proof.
  intros Hlen. rewrite tokenFrequency_lookup. case_decide as Hin; [|done].
  intros [= <-]. pose proof (occurrences_pos _ _ Hin).
  pose proof (occurrences_le t (tokenize inputContent)). lia.
Qed.

Lemma ranks_in_int_range inputContent iteration :
  Z.of_nat (length (tokenize inputContent)) < INT_MAX →
  iterates (tokenFrequency inputContent) iteration →
  (foldl assign (∅, 1) (std_sort iteration)).2 ≤ INT_MAX ∧
  ∀ t r, tokenPosition (std_sort iteration) !! t = Some r → 0 < r < INT_MAX.
Proof.
  intros Hlen Hit.
  pose proof (length_sortedTokens inputContent iteration Hit) as HD.
  pose proof (length_remove_dups_le (tokenize inputContent)).
  split; [rewrite foldl_assign_position; lia|].
  intros t r Hr.
  apply (tokenPosition_range inputContent iteration Hit) in Hr as [? _]. lia.
Qed.


Lemma encodedText_in_int_range inputContent iteration :
  Z.of_nat (length (tokenize inputContent)) < INT_MAX →
  iterates (tokenFrequency inputContent) iteration →
  Forall (λ r, 0 < r < INT_MAX)
    (encodedText (encode (tokenPosition (std_sort iteration)) inputContent)).
Proof.
  intros Hlen Hit. rewrite (encode_pipeline _ _ Hit). simpl.
  apply Forall_fmap, Forall_forall. intros t Hin. simpl.
  destruct (tokenPosition_is_Some _ _ Hit t Hin) as [r Hr]. rewrite Hr.
  simpl. by apply (ranks_in_int_range _ _ Hlen Hit) in Hr.
Qed.

(** ** The decoder in closed form *)

Lemma valid_in_range tokens r : valid tokens r = in_range (length tokens) r.
Proof.
  unfold valid, in_range. f_equal.
  destruct (Z.ltb_spec 0 r), (Z.leb_spec 1 r); (done || lia).
Qed.

Lemma decode_rest_find tokens rest decodedText :
  decode_rest tokens rest decodedText
  = match List.find (λ r, negb (in_range (length tokens) r)) rest with
    | Some r => inl r
    | None => inr (decodedText +:+ unwords (token_at tokens <$> rest))
    end.
Proof.
  revert decodedText. induction rest as [|r rest IH]; intros decodedText.
  { simpl. by rewrite append_nil_r. }
  simpl. rewrite valid_in_range.
  destruct (in_range (length tokens) r); simpl; [|done].
  rewrite IH. destruct (List.find _ rest); [done|]. f_equal.
  destruct rest as [|r' rest]; simpl.
  - by rewrite !append_nil_r.
  - by rewrite !append_assoc.
Qed.

Lemma decode_find tokens encodedText :
  decode tokens encodedText
  = match List.find (λ r, negb (in_range (length tokens) r)) encodedText with
    | Some r => inl r
    | None => inr (unwords (token_at tokens <$> encodedText))
    end.
Proof.
  by rewrite decode_decode_rest, decode_rest_find.
Qed.

(** ** The output of [project5.cpp] *)

Lemma foldl_app_mjoin {A B} (f : A → list B) (l : list A) acc :
  foldl (λ out x, out ++ f x) acc l = acc ++ mjoin (f <$> l).
Proof.
  revert acc. induction l as [|x l IH]; intros acc; simpl.
  - by rewrite app_nil_r.
  - by rewrite IH, <-app_assoc.
Qed.

Lemma print_and_encode_output sortedTokens tokenPosition inputContent :
  Project5.print_and_encode sortedTokens tokenPosition inputContent
  = let enc := encode tokenPosition inputContent in
    Outcome
      (mjoin ((λ pair, [Str pair.1; Str " "]) <$> sortedTokens)
         ++ [Endl; Str "**********"; Endl]
         ++ mjoin ((λ position, [Int position; Str " "]) <$> encodedText enc)
         ++ [Endl])
      (enc_cerr enc) 0.
Proof.
  unfold Project5.print_and_encode.
  by rewrite (foldl_app_mjoin (λ pair : string * Z, [Str pair.1; Str " "])),
    (foldl_app_mjoin (λ position, [Int position; Str " "])).
Qed.

Lemma length_omap_filter (tokenPosition : gmap string Z) (T : list string) :
  (length (omap (λ t, tokenPosition !! t) T)
   + length (filter (λ t, tokenPosition !! t = None) T))%nat
  = length T.
Proof.
  induction T as [|x T IH]; [done|]. rewrite filter_cons. simpl.
  destruct (tokenPosition !! x) eqn:Hx; simpl.
  - f_equal. exact IH.
  - rewrite Nat.add_succ_r. f_equal. exact IH.
Qed.


(** ** Token sequences and inputs *)

(** Every sequence of tokens is the token sequence of the text that joins
    it with single spaces, and on that text [project5_decompress] prints
    the text back: the statements below about inputs are statements about
    every token sequence. *)
Lemma main_token_sequence T iteration :
  Forall is_token T →
  Z.of_nat (length T) < INT_MAX →
  iterates (tokenFrequency (unwords T)) iteration →
  tokenize (unwords T) = T ∧
  Decompress.main (unwords T) iteration
  = Outcome [Str (unwords T); Endl] [] 0.
Proof.
  intros HT _ Hit. pose proof (tokenize_unwords T HT) as Htok.
  split; [done|]. by rewrite (main_pipeline _ _ Hit), Htok.
Qed.

(** * The properties of the specification *)





(** C3 as the code has it.  A token without an entry in the lookup is
    reported on [cerr] and skipped: the code sequence holds the ranks of
    the resolvable tokens only, in order, one message per unresolvable
    token occurrence goes to [cerr], the pass continues with the next
    token, and [project5] still exits with status 0. *)
Theorem unresolvable_token_reported_and_skipped
    (tokenPosition : gmap string Z) inputContent sortedTokens :
  let T := tokenize inputContent in
  let unresolved := filter (λ t, tokenPosition !! t = None) T in
  let enc := encode tokenPosition inputContent in
  encodedText enc = omap (λ t, tokenPosition !! t) T ∧
  enc_cerr enc = mjoin (not_found <$> unresolved) ∧
  (length (encodedText enc) + length unresolved)%nat = length T ∧
  cerr (Project5.print_and_encode sortedTokens tokenPosition inputContent)
  = mjoin (not_found <$> unresolved) ∧
  exit_code (Project5.print_and_encode sortedTokens tokenPosition inputContent)
  = 0.
Proof.
  cbv zeta. rewrite print_and_encode_output. cbv zeta.
  rewrite encode_foldl, foldl_processToken by apply tokenize_nonempty.
  simpl. split_and!; [done..| |done|done].
  apply length_omap_filter.
Qed.

(** C3 as stated fails: with the lookup [{b ↦ 1}] and the input ["a b"],
    the token [a] has no entry, yet the pass goes on to encode [b], the
    code sequence [[1]] is one shorter than the token sequence, and the
    program exits with status 0. *)
Lemma unresolvable_token_not_fatal :
  let tokenPosition : gmap string Z := {["b" := 1]} in
  let out := Project5.print_and_encode [("b", 1)] tokenPosition "a b" in
  tokenize "a b" = ["a"; "b"] ∧
  tokenPosition !! "a" = None ∧
  encode tokenPosition "a b" = Encoding [1] (not_found "a") ∧
  length (encodedText (encode tokenPosition "a b"))
  ≠ length (tokenize "a b") ∧
  exit_code out = 0 ∧
  cout out
  = [Str "b"; Str " "; Endl; Str "**********"; Endl; Int 1; Str " "; Endl].
Proof. vm_compute. split_and!; (reflexivity || discriminate). Qed.

(** C4 (invalid rank).  Steps 6 and 7 of [project5_decompress], on any
    code sequence and any sorted vector of [D] entries: when every rank
    lies in [[1, D]] the tokens at those ranks are printed, joined by
    single spaces, with exit status 0; otherwise the first rank outside
    [[1, D]] is reported on [cerr], the exit status is 1 and nothing at
    all is written to [cout]. *)
Theorem decode_invalid_rank_aborts sortedTokens enc :
  let D := length sortedTokens in
  let token r := default "" (sortedTokens.*1 !! Z.to_nat (r - 1)) in
  Decompress.decode_and_print sortedTokens enc
  = match List.find (λ r, negb (in_range D r)) (encodedText enc) with
    | None =>
        Outcome [Str (unwords (token <$> encodedText enc)); Endl]
                (enc_cerr enc) 0
    | Some r =>
        Outcome []
          (enc_cerr enc ++ [Str "Error: Invalid position "; Int r; Endl]) 1
    end.
Proof.
  simpl. unfold Decompress.decode_and_print.
  rewrite decode_find, length_tokens.
  destruct (List.find _ _); [done|].
  unfold token_at. by rewrite tokens_fst.
Qed.

(** C5 (rank totality).  On an input of fewer than [INT_MAX] tokens,
    the range in which the counter [position] is the [int] of the
    program, and with [D] the number of distinct tokens of the input, the
    ranks held by the token-to-rank lookup are, counted with
    multiplicity, exactly [1, 2, ..., D]: the lookup has [D] entries,
    every integer of the interval is the rank of one token, and of no
    second one; and every rank fits an [int]. *)
Theorem rank_totality inputContent iteration :
  Z.of_nat (length (tokenize inputContent)) < INT_MAX →
  iterates (tokenFrequency inputContent) iteration →
  let D := length (remove_dups (tokenize inputContent)) in
  let tokenPosition := tokenPosition (std_sort iteration) in
  size tokenPosition = D ∧
  (map_to_list tokenPosition).*2 ≡ₚ seqZ 1 (Z.of_nat D) ∧
  (∀ t1 t2 r,
     tokenPosition !! t1 = Some r → tokenPosition !! t2 = Some r →
     t1 = t2) ∧
  (∀ t r, tokenPosition !! t = Some r → 0 < r < INT_MAX).
Proof.
  intros Hlen Hit. simpl.
  pose proof (sortedTokens_NoDup_fst inputContent iteration Hit) as Hnd.
  rewrite <-(length_sortedTokens inputContent iteration Hit).
  split_and!.
  - by apply size_tokenPosition.
  - by apply tokenPosition_values.
  - intros t1 t2 r H1 H2.
    apply tokenPosition_rank_to_token in H1, H2; [|done..]. congruence.
  - intros t r Hr. by apply (ranks_in_int_range _ _ Hlen Hit) in Hr.
Qed.

Lemma rank_totality_witness :
  Z.of_nat (length (tokenize example_text)) < INT_MAX ∧
  iterates (tokenFrequency example_text)
           (map_to_list (tokenFrequency example_text)) ∧
  (map_to_list
     (tokenPosition (std_sort (map_to_list (tokenFrequency example_text))))).*2
  ≡ₚ seqZ 1 (Z.of_nat (length (remove_dups (tokenize example_text)))).
Proof.
  split; [reflexivity|]. split; [unfold iterates; reflexivity|].
  refine (proj1 (proj2
            (rank_totality example_text
               (map_to_list (tokenFrequency example_text)) _ _))).
  - reflexivity.
  - unfold iterates; reflexivity.
Defined.

(** C6 (tie-break).  On an input of fewer than [INT_MAX] tokens, the
    range in which the counts and ranks are the [int]s of the program:
    for two tokens of the input with ranks [r1] and [r2], [r1] is the
    smaller rank exactly when the first token occurs more often, or the
    two occur equally often and the first is the smaller one in the
    lexicographic order of [std::string]: frequency descending, then
    token ascending. *)
Theorem tie_break inputContent iteration t1 t2 r1 r2 :
  Z.of_nat (length (tokenize inputContent)) < INT_MAX →
  iterates (tokenFrequency inputContent) iteration →
  tokenPosition (std_sort iteration) !! t1 = Some r1 →
  tokenPosition (std_sort iteration) !! t2 = Some r2 →
  let f1 := occurrences t1 (tokenize inputContent) in
  let f2 := occurrences t2 (tokenize inputContent) in
  r1 < r2 ↔ f2 < f1 ∨ (f1 = f2 ∧ String.ltb t1 t2 = true).
Proof.
  intros _ Hit H1 H2. simpl.
  pose proof (sortedTokens_NoDup_fst inputContent iteration Hit) as Hnd.
  apply tokenPosition_lookup in H1 as (i & Hi & ->); [|done].
  apply tokenPosition_lookup in H2 as (j & Hj & ->); [|done].
  apply list_lookup_fmap_Some in Hi as ([t1' c1] & -> & Hi).
  apply list_lookup_fmap_Some in Hj as ([t2' c2] & -> & Hj). simpl.
  pose proof (list_elem_of_lookup_2 _ _ _ Hi) as Hin1.
  pose proof (list_elem_of_lookup_2 _ _ _ Hj) as Hin2.
  apply (elem_of_sortedTokens inputContent iteration Hit) in Hin1 as [_ ->].
  apply (elem_of_sortedTokens inputContent iteration Hit) in Hin2 as [_ ->].
  pose proof (comp_sorted_index (std_sort iteration) i j _ _
                (std_sort_sorted iteration)
                (sortedTokens_NoDup inputContent iteration Hit) Hi Hj) as Hidx.
  rewrite comp_spec in Hidx. simpl in Hidx. rewrite <-Hidx. lia.
Qed.

Lemma tie_break_witness :
  Z.of_nat (length (tokenize example_text)) < INT_MAX ∧
  iterates (tokenFrequency example_text)
           (map_to_list (tokenFrequency example_text)) ∧
  tokenPosition (std_sort (map_to_list (tokenFrequency example_text))) !! "mat"
  = Some 3 ∧
  tokenPosition (std_sort (map_to_list (tokenFrequency example_text))) !! "on"
  = Some 4 ∧
  (3 < 4 ↔
   occurrences "on" (tokenize example_text)
   < occurrences "mat" (tokenize example_text) ∨
   (occurrences "mat" (tokenize example_text)
    = occurrences "on" (tokenize example_text) ∧
    String.ltb "mat" "on" = true)).
Proof.
  split; [reflexivity|]. split; [unfold iterates; reflexivity|].
  split; [reflexivity|]. split; [reflexivity|].
  refine (tie_break example_text (map_to_list (tokenFrequency example_text))
            "mat" "on" 3 4 _ _ _ _).
  - reflexivity.
  - unfold iterates; reflexivity.
  - reflexivity.
  - reflexivity.
Defined.

(** C7 (determinism).  Two runs on the same input, whatever the orders
    in which they traverse the frequency map, produce the same sorted
    vector and the same two lookups; and any arrangement of the entries
    that [std::sort] may return, a permutation in which [comp] never
    holds from a later element to an earlier one, is that same vector. *)
Theorem rank_table_deterministic inputContent iteration1 iteration2 :
  iterates (tokenFrequency inputContent) iteration1 →
  iterates (tokenFrequency inputContent) iteration2 →
  std_sort iteration1 = std_sort iteration2 ∧
  tokenPosition (std_sort iteration1) = tokenPosition (std_sort iteration2) ∧
  tokens (std_sort iteration1) = tokens (std_sort iteration2) ∧
  ∀ sortedTokens,
    sortedTokens ≡ₚ iteration1 → comp_sorted sortedTokens →
    sortedTokens = std_sort iteration2.
Proof.
  unfold iterates. intros H1 H2.
  assert (std_sort iteration1 = std_sort iteration2) as Heq.
  { apply std_sort_order_irrelevant. by rewrite H1, H2. }
  rewrite Heq. split_and!; [done..|].
  intros sortedTokens Hp Hs. rewrite <-Heq. by apply std_sort_unique.
Qed.

Lemma rank_table_deterministic_witness :
  iterates (tokenFrequency example_text)
           (map_to_list (tokenFrequency example_text)) ∧
  iterates (tokenFrequency example_text)
           (reverse (map_to_list (tokenFrequency example_text))) ∧
  std_sort (map_to_list (tokenFrequency example_text))
  = std_sort (reverse (map_to_list (tokenFrequency example_text))).
Proof.
  split; [unfold iterates; reflexivity|].
  split; [unfold iterates; apply reverse_Permutation|].
  refine (proj1 (rank_table_deterministic example_text
                   (map_to_list (tokenFrequency example_text))
                   (reverse (map_to_list (tokenFrequency example_text)))
                   _ _)).
  - unfold iterates; reflexivity.
  - unfold iterates; apply reverse_Permutation.
Defined.

(** C8 (empty input).  An input without tokens is not an error: the
    frequency map, the sorted vector, both lookups and the code sequence
    are empty, nothing is written to [cerr], decoding the empty code
    sequence gives the empty text, and both programs exit with status 0,
    [project5_decompress] printing an empty line. *)
Theorem empty_input inputContent iteration :
  tokenize inputContent = [] →
  iterates (tokenFrequency inputContent) iteration →
  tokenFrequency inputContent = ∅ ∧
  std_sort iteration = [] ∧
  tokenPosition (std_sort iteration) = ∅ ∧
  tokens (std_sort iteration) = [] ∧
  encode (tokenPosition (std_sort iteration)) inputContent = Encoding [] [] ∧
  decode (tokens (std_sort iteration)) [] = inr "" ∧
  Decompress.main inputContent iteration = Outcome [Str ""; Endl] [] 0 ∧
  Project5.main inputContent iteration
  = Outcome [Endl; Str "**********"; Endl; Endl] [] 0.
Proof.
  intros HT Hit.
  assert (tokenFrequency inputContent = ∅) as Hm.
  { by rewrite tokenFrequency_foldl, HT. }
  assert (iteration = []) as ->.
  { apply Permutation_nil_r. unfold iterates in Hit.
    by rewrite Hit, Hm, map_to_list_empty. }
  assert (encode (tokenPosition (std_sort [])) inputContent = Encoding [] [])
    as Henc by (by rewrite encode_foldl, HT).
  split_and!; try done.
  - unfold Decompress.main, Decompress.decode_and_print. by rewrite Henc.
  - unfold Project5.main. rewrite print_and_encode_output. cbv zeta.
    by rewrite Henc.
Qed.

Lemma empty_input_witness :
  tokenize "  " = [] ∧
  iterates (tokenFrequency "  ") [] ∧
  Decompress.main "  " [] = Outcome [Str ""; Endl] [] 0.
Proof.
  split; [reflexivity|]. split; [unfold iterates; reflexivity|].
  apply (empty_input "  " []).
  - reflexivity.
  - unfold iterates; reflexivity.
Defined.

(** C9 (bijection).  On an input of fewer than [INT_MAX] tokens, the
    range in which the ranks are the [int]s of the program: the
    token-to-rank lookup and the rank-to-token lookup both have [D]
    entries, [D] the number of distinct tokens, and the first maps [t] to
    [r] exactly when the second maps [r] to [t]. *)
Theorem rank_table_bijection inputContent iteration :
  Z.of_nat (length (tokenize inputContent)) < INT_MAX →
  iterates (tokenFrequency inputContent) iteration →
  let D := length (remove_dups (tokenize inputContent)) in
  let sortedTokens := std_sort iteration in
  size (tokenPosition sortedTokens) = D ∧
  length (tokens sortedTokens) = D ∧
  ∀ t r,
    tokenPosition sortedTokens !! t = Some r ↔
    rank_to_token (tokens sortedTokens) r = Some t.
Proof.
  intros _ Hit. simpl.
  pose proof (sortedTokens_NoDup_fst inputContent iteration Hit) as Hnd.
  rewrite <-(length_sortedTokens inputContent iteration Hit).
  split_and!.
  - by apply size_tokenPosition.
  - apply length_tokens.
  - intros t r. by apply tokenPosition_rank_to_token.
Qed.

Lemma rank_table_bijection_witness :
  Z.of_nat (length (tokenize example_text)) < INT_MAX ∧
  iterates (tokenFrequency example_text)
           (map_to_list (tokenFrequency example_text)) ∧
  size (tokenPosition (std_sort (map_to_list (tokenFrequency example_text))))
  = length (remove_dups (tokenize example_text)).
Proof.
  split; [reflexivity|]. split; [unfold iterates; reflexivity|].
  refine (proj1 (rank_table_bijection example_text
                   (map_to_list (tokenFrequency example_text)) _ _)).
  - reflexivity.
  - unfold iterates; reflexivity.
Defined.

(** C10 (the error branch cannot be reached after the encoder).  On an
    input of fewer than [INT_MAX] tokens, the range in which the ranks
    are the [int]s of the program: every value the encoder appends fits
    an [int], is a value stored in the token-to-rank lookup and lies in
    [[1, D]], so the bounds check of the decoder holds at every element,
    the loop runs to its end, and [project5_decompress] writes nothing to
    [cerr] and exits with status 0. *)
Theorem encoder_ranks_in_range inputContent iteration :
  Z.of_nat (length (tokenize inputContent)) < INT_MAX →
  iterates (tokenFrequency inputContent) iteration →
  let D := length (remove_dups (tokenize inputContent)) in
  let sortedTokens := std_sort iteration in
  let code := encodedText (encode (tokenPosition sortedTokens) inputContent) in
  Forall (λ r, 0 < r < INT_MAX) code ∧
  Forall (λ r, 1 ≤ r ≤ Z.of_nat D ∧
               ∃ t, tokenPosition sortedTokens !! t = Some r) code ∧
  Forall (λ r, valid (tokens sortedTokens) r = true) code ∧
  (∃ decodedText, decode (tokens sortedTokens) code = inr decodedText) ∧
  cerr (Decompress.main inputContent iteration) = [] ∧
  exit_code (Decompress.main inputContent iteration) = 0.
Proof.
  intros Hlen Hit. simpl.
  rewrite (main_pipeline _ _ Hit), (decode_pipeline _ _ Hit).
  split_and!;
    [by apply encodedText_in_int_range| |by apply encodedText_valid
    |by eauto|done..].
  rewrite (encode_pipeline _ _ Hit). simpl.
  apply Forall_fmap, Forall_forall. intros t Hin. simpl.
  destruct (tokenPosition_is_Some _ _ Hit t Hin) as [r Hr]. rewrite Hr. simpl.
  split; [|by eauto].
  rewrite <-(length_sortedTokens _ _ Hit).
  by apply (tokenPosition_range _ _ Hit) in Hr as [? _].
Qed.

Lemma encoder_ranks_in_range_witness :
  Z.of_nat (length (tokenize example_text)) < INT_MAX ∧
  iterates (tokenFrequency example_text)
           (map_to_list (tokenFrequency example_text)) ∧
  exit_code
    (Decompress.main example_text (map_to_list (tokenFrequency example_text)))
  = 0.
Proof.
  split; [reflexivity|]. split; [unfold iterates; reflexivity|].
  refine (proj2 (proj2 (proj2 (proj2 (proj2
            (encoder_ranks_in_range example_text
               (map_to_list (tokenFrequency example_text)) _ _)))))).
  - reflexivity.
  - unfold iterates; reflexivity.
Defined.


(** * Further properties of the two programs *)

(** ** Helper lemmas *)

Lemma total_perm l1 l2 : l1 ≡ₚ l2 → total l1 = total l2.
Proof.
  induction 1 as [|x l1 l2 _ IH|x y l|l1 l2 l3 _ IH1 _ IH2]; simpl;
    [done|by rewrite IH|lia|congruence].
Qed.

Lemma total_insert (m : gmap string Z) k v :
  total (map_to_list (<[k:=v]> m)) = v + total (map_to_list (delete k m)).
Proof.
  rewrite <-insert_delete_eq.
  by rewrite (total_perm _ _
    (map_to_list_insert (delete k m) k v (lookup_delete_eq m k))).
Qed.

Lemma total_lookup (m : gmap string Z) k :
  total (map_to_list m)
  = default 0 (m !! k) + total (map_to_list (delete k m)).
Proof.
  destruct (m !! k) as [c|] eqn:Hk; simpl.
  - by rewrite <-(total_perm _ _ (map_to_list_delete m k c Hk)).
  - by rewrite delete_id.
Qed.

Lemma total_addToken m token :
  empty token = false →
  total (map_to_list (addToken m token)) = total (map_to_list m) + 1.
Proof.
  intros He. unfold addToken. rewrite He. simpl.
  rewrite total_insert, (total_lookup m token). lia.
Qed.

Lemma total_foldl_addToken T m :
  Forall (λ t, empty t = false) T →
  total (map_to_list (foldl addToken m T))
  = total (map_to_list m) + Z.of_nat (length T).
Proof.
  intros HT. revert m. induction HT as [|x T Hx _ IH]; intros m; simpl.
  - lia.
  - rewrite IH, total_addToken by done. lia.
Qed.

Lemma scan_space {S : Type} (emit : S → string → S) s1 c s2 token st :
  isspace c = true →
  scan emit (s1 +:+ String c s2) token st
  = scan emit s2 "" (scan emit s1 token st).
Proof.
  intros Hc. revert token st.
  induction s1 as [|a s1 IH]; intros token st.
  - change ("" +:+ String c s2) with (String c s2). simpl. by rewrite Hc.
  - rewrite append_cons. simpl. destruct (isspace a); apply IH.
Qed.

Lemma tokenize_space s1 c s2 :
  isspace c = true →
  tokenize (s1 +:+ String c s2) = tokenize s1 ++ tokenize s2.
Proof.
  intros Hc. unfold tokenize. rewrite scan_space by done.
  apply scan_collect_app.
Qed.

Lemma occurrences_app t T1 T2 :
  occurrences t (T1 ++ T2) = occurrences t T1 + occurrences t T2.
Proof. unfold occurrences. rewrite filter_app, length_app. lia. Qed.

Lemma occurrences_notin t T : t ∉ T → occurrences t T = 0.
Proof.
  induction T as [|x T IH]; [done|].
  rewrite not_elem_of_cons, occurrences_cons. intros [Hne Hnot].
  rewrite decide_False by done. rewrite IH by done. lia.
Qed.

Lemma tokenFrequency_count inputContent t :
  default 0 (tokenFrequency inputContent !! t)
  = occurrences t (tokenize inputContent).
Proof.
  rewrite tokenFrequency_lookup. case_decide as Hin; simpl; [done|].
  by rewrite occurrences_notin.
Qed.


Lemma valid_lookup (tokens : list string) position :
  valid tokens position = true →
  (Z.to_nat (position - 1) < length tokens)%nat ∧
  tokens !! Z.to_nat (position - 1) = Some (token_at tokens position).
Proof.
  unfold valid. intros [H0 H1]%andb_true_iff.
  apply Z.ltb_lt in H0. apply Z.leb_le in H1.
  assert (Z.to_nat (position - 1) < length tokens)%nat as Hlt by lia.
  split; [done|]. unfold token_at.
  destruct (lookup_lt_is_Some_2 tokens _ Hlt) as [t Ht]. by rewrite Ht.
Qed.

(** ** The first pass *)

(** X1.  On an input of fewer than [INT_MAX] tokens, the range in which
    the counts are the [int]s of the program: after the first pass the
    frequency map has an entry for exactly the tokens of the input, each
    holding the number of its occurrences, which lies between 1 and the
    number of tokens and fits an [int]; the map has as many entries as
    the input has distinct tokens. *)
Theorem frequency_counts inputContent :
  Z.of_nat (length (tokenize inputContent)) < INT_MAX →
  (∀ t c, tokenFrequency inputContent !! t = Some c ↔
          t ∈ tokenize inputContent ∧
          c = occurrences t (tokenize inputContent)) ∧
  (∀ t c, tokenFrequency inputContent !! t = Some c →
          1 ≤ c ≤ Z.of_nat (length (tokenize inputContent)) ∧
          c < INT_MAX) ∧
  size (tokenFrequency inputContent)
  = length (remove_dups (tokenize inputContent)).
Proof.
  intros Hlen.
  assert (iterates (tokenFrequency inputContent)
            (map_to_list (tokenFrequency inputContent))) as Hit
    by (unfold iterates; reflexivity).
  split_and!.
  - intros t c. rewrite tokenFrequency_lookup. case_decide as Hin.
    + split; [intros [= <-]; done | intros [_ ->]; done].
    + split; [done | intros [? _]; done].
  - intros t c. rewrite tokenFrequency_lookup.
    case_decide as Hin; [|done]. intros [= <-].
    pose proof (occurrences_pos _ _ Hin).
    pose proof (occurrences_le t (tokenize inputContent)). lia.
  - rewrite <-(length_sortedTokens_size _ _ Hit).
    by apply length_sortedTokens.
Qed.

Lemma frequency_counts_witness :
  Z.of_nat (length (tokenize example_text)) < INT_MAX ∧
  size (tokenFrequency example_text)
  = length (remove_dups (tokenize example_text)).
Proof.
  split; [reflexivity|].
  refine (proj2 (proj2 (frequency_counts example_text _))).
  reflexivity.
Defined.

(** X2.  On an input of fewer than [INT_MAX] tokens, the range in which
    the counts are the [int]s of the program: the counts add up to the
    number of tokens of the input, in whatever order the entries of the
    frequency map are taken, and so do the counts of the sorted vector. *)
Theorem frequency_total inputContent iteration :
  Z.of_nat (length (tokenize inputContent)) < INT_MAX →
  iterates (tokenFrequency inputContent) iteration →
  total iteration = Z.of_nat (length (tokenize inputContent)) ∧
  total (std_sort iteration) = Z.of_nat (length (tokenize inputContent)).
Proof.
  unfold iterates. intros _ Hit.
  assert (total iteration = Z.of_nat (length (tokenize inputContent))) as Ht.
  { rewrite (total_perm _ _ Hit), tokenFrequency_foldl.
    rewrite total_foldl_addToken by apply tokenize_nonempty.
    by rewrite map_to_list_empty. }
  split; [done|]. by rewrite (total_perm _ _ (std_sort_perm iteration)).
Qed.

Lemma frequency_total_witness :
  Z.of_nat (length (tokenize example_text)) < INT_MAX ∧
  iterates (tokenFrequency example_text)
           (map_to_list (tokenFrequency example_text)) ∧
  total (map_to_list (tokenFrequency example_text))
  = Z.of_nat (length (tokenize example_text)).
Proof.
  split; [reflexivity|]. split; [unfold iterates; reflexivity|].
  refine (proj1 (frequency_total example_text
                   (map_to_list (tokenFrequency example_text)) _ _)).
  - reflexivity.
  - unfold iterates; reflexivity.
Defined.

(** ** The character loop *)


(** X4.  A sequence of non-empty, whitespace-free tokens joined by single
    spaces is split by the character loop into that same sequence. *)
Theorem tokenize_joined T :
  Forall is_token T → tokenize (unwords T) = T.
Proof. apply tokenize_unwords. Qed.

Lemma tokenize_joined_witness :
  Forall is_token ["ab"; "c"] ∧ tokenize (unwords ["ab"; "c"]) = ["ab"; "c"].
Proof.
  assert (Forall is_token ["ab"; "c"]) as HT.
  { repeat constructor. }
  split; [exact HT|]. exact (tokenize_joined ["ab"; "c"] HT).
Defined.

(** X5.  Both passes can be cut at any whitespace character: running a
    pass over [s1], the whitespace character and [s2] is running it over
    [s1] and continuing over [s2] from the state reached, and the token
    sequence is the one of [s1] followed by the one of [s2]. *)
Theorem passes_split_at_whitespace
    (tokenPosition : gmap string Z) s1 c s2 :
  isspace c = true →
  tokenFrequency (s1 +:+ String c s2)
  = scan addToken s2 "" (tokenFrequency s1) ∧
  encode tokenPosition (s1 +:+ String c s2)
  = scan (λ st token, processToken tokenPosition token st) s2 ""
         (encode tokenPosition s1) ∧
  tokenize (s1 +:+ String c s2) = tokenize s1 ++ tokenize s2.
Proof.
  intros Hc. split_and!.
  - unfold tokenFrequency. by apply scan_space.
  - unfold encode. by apply scan_space.
  - by apply tokenize_space.
Qed.

Lemma passes_split_at_whitespace_witness :
  isspace " " = true ∧
  tokenize ("a b" +:+ String " " "c") = tokenize "a b" ++ tokenize "c".
Proof.
  split; [reflexivity|].
  refine (proj2 (proj2 (passes_split_at_whitespace ∅ "a b" " " "c" _))).
  reflexivity.
Defined.

(** X6.  Frequencies add over texts put together with a whitespace
    character between them, as long as the whole has fewer than
    [INT_MAX] tokens, the range in which the counts are the [int]s of the
    program: the count of a token in the whole is the sum of its counts
    in the two parts, an absent entry counting as 0. *)
Theorem frequency_additive s1 c s2 t :
  Z.of_nat (length (tokenize (s1 +:+ String c s2))) < INT_MAX →
  isspace c = true →
  default 0 (tokenFrequency (s1 +:+ String c s2) !! t)
  = default 0 (tokenFrequency s1 !! t) + default 0 (tokenFrequency s2 !! t).
Proof.
  intros _ Hc. rewrite !tokenFrequency_count, tokenize_space by done.
  apply occurrences_app.
Qed.

Lemma frequency_additive_witness :
  Z.of_nat (length (tokenize ("a b" +:+ String " " "a"))) < INT_MAX ∧
  isspace " " = true ∧
  default 0 (tokenFrequency ("a b" +:+ String " " "a") !! "a")
  = default 0 (tokenFrequency "a b" !! "a")
    + default 0 (tokenFrequency "a" !! "a").
Proof.
  split; [reflexivity|]. split; [reflexivity|].
  refine (frequency_additive "a b" " " "a" "a" _ _).
  - reflexivity.
  - reflexivity.
Defined.

(** ** Sorting *)

(** X7.  The lambda handed to [std::sort] is a strict weak ordering, as
    [std::sort] requires, and more: it is irreflexive, asymmetric and
    transitive, its incomparability is transitive, and any two different
    pairs are ordered one way or the other. *)
Theorem comp_strict_total_order :
  (∀ a, comp a a = false) ∧
  (∀ a b, comp a b = true → comp b a = false) ∧
  (∀ a b c, comp a b = true → comp b c = true → comp a c = true) ∧
  (∀ a b c, comp b a = false → comp c b = false → comp c a = false) ∧
  (∀ a b, a ≠ b → comp a b = true ∨ comp b a = true).
Proof.
  split_and!.
  - apply comp_irrefl.
  - apply comp_asym.
  - apply comp_trans.
  - apply comp_false_trans.
  - apply comp_total.
Qed.

(** X8.  On an input of fewer than [INT_MAX] tokens, the range in which
    the counts are the [int]s of the program: the sorted vector, which
    [project5] prints, holds every distinct token of the input exactly
    once, paired with its number of occurrences, and its counts never
    increase from one position to a later one. *)
Theorem sorted_vector inputContent iteration :
  Z.of_nat (length (tokenize inputContent)) < INT_MAX →
  iterates (tokenFrequency inputContent) iteration →
  let sortedTokens := std_sort iteration in
  NoDup (sortedTokens.*1) ∧
  sortedTokens.*1 ≡ₚ remove_dups (tokenize inputContent) ∧
  (∀ t c, (t, c) ∈ sortedTokens ↔
          t ∈ tokenize inputContent ∧
          c = occurrences t (tokenize inputContent)) ∧
  (∀ i j a b, sortedTokens !! i = Some a → sortedTokens !! j = Some b →
              (i < j)%nat → b.2 ≤ a.2).
Proof.
  intros _ Hit. simpl. split_and!.
  - by apply (sortedTokens_NoDup_fst inputContent).
  - by apply sortedTokens_distinct.
  - intros t c. by apply elem_of_sortedTokens.
  - intros i j a b Hi Hj Hlt.
    pose proof (comp_sorted_lookup _ i j a b (std_sort_sorted iteration)
                  Hi Hj Hlt) as Hba.
    destruct (Z.le_gt_cases b.2 a.2) as [|Hgt]; [done|].
    assert (comp b a = true) as Hc by (apply comp_spec; auto).
    congruence.
Qed.

Lemma sorted_vector_witness :
  Z.of_nat (length (tokenize example_text)) < INT_MAX ∧
  iterates (tokenFrequency example_text)
           (map_to_list (tokenFrequency example_text)) ∧
  NoDup ((std_sort (map_to_list (tokenFrequency example_text))).*1).
Proof.
  split; [reflexivity|]. split; [unfold iterates; reflexivity|].
  refine (proj1 (sorted_vector example_text
                   (map_to_list (tokenFrequency example_text)) _ _)).
  - reflexivity.
  - unfold iterates; reflexivity.
Defined.

(** X9.  On an input of fewer than [INT_MAX] tokens no [int] of the
    programs leaves its range: every count and every rank lies strictly
    between 0 and [INT_MAX], and so does not the last value of
    [position] exceed [INT_MAX]. *)
Theorem no_int_overflow inputContent iteration :
  Z.of_nat (length (tokenize inputContent)) < INT_MAX →
  iterates (tokenFrequency inputContent) iteration →
  (∀ t c, tokenFrequency inputContent !! t = Some c → 0 < c < INT_MAX) ∧
  (∀ t r, tokenPosition (std_sort iteration) !! t = Some r →
          0 < r < INT_MAX) ∧
  (foldl assign (∅, 1) (std_sort iteration)).2 ≤ INT_MAX.
Proof.
  intros Hlen Hit.
  destruct (ranks_in_int_range inputContent iteration Hlen Hit) as [Hp Hr].
  split_and!; [|done..].
  intros t c. by apply counts_in_int_range.
Qed.

Lemma no_int_overflow_witness :
  Z.of_nat (length (tokenize example_text)) < INT_MAX ∧
  iterates (tokenFrequency example_text)
           (map_to_list (tokenFrequency example_text)) ∧
  (foldl assign (∅, 1)
     (std_sort (map_to_list (tokenFrequency example_text)))).2 ≤ INT_MAX.
Proof.
  split; [reflexivity|]. split; [unfold iterates; reflexivity|].
  refine (proj2 (proj2 (no_int_overflow example_text
                          (map_to_list (tokenFrequency example_text)) _ _))).
  - reflexivity.
  - unfold iterates; reflexivity.
Defined.

(** ** Encoding against any lookup, decoding against any vector *)

Lemma unresolved_nil (tokenPosition : gmap string Z) (T : list string) :
  filter (λ t, tokenPosition !! t = None) T = [] ↔
  ∀ t, t ∈ T → is_Some (tokenPosition !! t).
Proof.
  split; [|apply filter_total]. intros Hnil t Hin.
  destruct (tokenPosition !! t) eqn:Ht; [by eauto|].
  by destruct (filter_nil_not_elem_of _ _ t Hnil Ht).
Qed.

Lemma not_found_nil (l : list string) :
  mjoin (not_found <$> l) = [] ↔ l = [].
Proof. split; [|by intros ->]. by destruct l. Qed.

(** X10.  The bounds check of the decoder is what the index needs: a
    position that passes it has [position - 1] inside the [tokens]
    vector, so [tokens[position - 1]] reads an element of the vector, and
    a position that fails it is looked up nowhere. *)
Theorem decoder_index_in_bounds (tokens : list string) position :
  (valid tokens position = true →
   (Z.to_nat (position - 1) < length tokens)%nat ∧
   Z.of_nat (Z.to_nat (position - 1)) = position - 1 ∧
   rank_to_token tokens position = Some (token_at tokens position)) ∧
  (valid tokens position = false → rank_to_token tokens position = None).
Proof.
  split.
  - intros Hv. destruct (valid_lookup tokens position Hv) as [Hlt Ht].
    split_and!; [done| |].
    + unfold valid in Hv. apply andb_true_iff in Hv as [H0 _].
      apply Z.ltb_lt in H0. lia.
    + unfold rank_to_token. by rewrite Hv.
  - intros Hv. unfold rank_to_token. by rewrite Hv.
Qed.

(** X11.  Encoding reports nothing on [cerr] exactly when every token of
    the input has an entry in the lookup, and exactly then is the code
    sequence as long as the token sequence; this holds for any lookup,
    not only the one built from the same input. *)
Theorem encode_errors_iff (tokenPosition : gmap string Z) inputContent :
  let enc := encode tokenPosition inputContent in
  let resolved :=
    ∀ t, t ∈ tokenize inputContent → is_Some (tokenPosition !! t) in
  (enc_cerr enc = [] ↔ resolved) ∧
  (length (encodedText enc) = length (tokenize inputContent) ↔ resolved).
Proof.
  cbv zeta.
  rewrite encode_foldl, foldl_processToken by apply tokenize_nonempty.
  simpl. rewrite <-unresolved_nil. split.
  - apply not_found_nil.
  - pose proof (length_omap_filter tokenPosition (tokenize inputContent)).
    split.
    + intros Hlen. apply nil_length_inv. lia.
    + intros Hnil. rewrite Hnil in H. simpl in H. lia.
Qed.

(** X12.  Decoding and then encoding gives the code sequence back: for
    the rank table of an input and any code sequence whose ranks all lie
    in [[1, D]], the decoder returns a text, and encoding that text with
    the same table returns the code sequence, with nothing on [cerr]. *)
Theorem encode_decode inputContent iteration code :
  iterates (tokenFrequency inputContent) iteration →
  Forall (λ r, in_range (length (std_sort iteration)) r = true) code →
  let sortedTokens := std_sort iteration in
  ∃ text,
    decode (tokens sortedTokens) code = inr text ∧
    encode (tokenPosition sortedTokens) text = Encoding code [].
Proof.
  intros Hit Hcode. simpl.
  pose proof (sortedTokens_NoDup_fst inputContent iteration Hit) as Hnd.
  assert (Forall (λ r, valid (tokens (std_sort iteration)) r = true) code)
    as Hvalid.
  { eapply Forall_impl; [exact Hcode|]. intros r Hr. simpl in Hr.
    by rewrite valid_in_range, length_tokens. }
  assert (Forall (λ r, tokenPosition (std_sort iteration)
                         !! token_at (tokens (std_sort iteration)) r
                       = Some r) code) as Hrank.
  { eapply Forall_impl; [exact Hvalid|]. intros r Hr. simpl in Hr.
    apply tokenPosition_rank_to_token; [done|].
    unfold rank_to_token. rewrite Hr.
    by apply valid_lookup in Hr as [_ ?]. }
  set (L := token_at (tokens (std_sort iteration)) <$> code).
  assert (Forall is_token L) as HL.
  { apply Forall_fmap. eapply Forall_impl; [exact Hrank|].
    intros r Hr. simpl in *.
    apply (tokenPosition_range inputContent iteration Hit) in Hr
      as (_ & _ & _ & Hin).
    pose proof (tokenize_tokens inputContent) as Htok.
    rewrite Forall_forall in Htok. by apply Htok. }
  assert (∀ t, t ∈ L → is_Some (tokenPosition (std_sort iteration) !! t))
    as Hres.
  { intros t (r & -> & Hr)%list_elem_of_fmap.
    rewrite Forall_forall in Hrank. rewrite (Hrank r Hr). eauto. }
  exists (unwords L). split; [by apply decode_valid|].
  rewrite encode_foldl, tokenize_unwords by done.
  rewrite foldl_processToken.
  2:{ eapply Forall_impl; [exact HL|]. by intros t [? _]. }
  simpl. rewrite omap_total, filter_total by done. simpl. f_equal.
  unfold L. rewrite <-list_fmap_compose.
  rewrite <-(list_fmap_id code) at 2. apply Forall_fmap_ext.
  eapply Forall_impl; [exact Hrank|]. intros r Hr. simpl in *.
  by rewrite Hr.
Qed.

Lemma encode_decode_witness :
  iterates (tokenFrequency example_text)
           (map_to_list (tokenFrequency example_text)) ∧
  Forall (λ r, in_range
                 (length (std_sort (map_to_list
                                      (tokenFrequency example_text)))) r
               = true) [6; 1; 1] ∧
  ∃ text,
    decode (tokens (std_sort (map_to_list (tokenFrequency example_text))))
           [6; 1; 1] = inr text ∧
    encode (tokenPosition
              (std_sort (map_to_list (tokenFrequency example_text)))) text
    = Encoding [6; 1; 1] [].
Proof.
  assert (Forall (λ r, in_range
                   (length (std_sort (map_to_list
                                        (tokenFrequency example_text)))) r
                 = true) [6; 1; 1]) as Hcode.
  { repeat constructor. }
  split; [unfold iterates; reflexivity|]. split; [exact Hcode|].
  refine (encode_decode example_text
            (map_to_list (tokenFrequency example_text)) [6; 1; 1] _ Hcode).
  unfold iterates; reflexivity.
Defined.

(** ** The two programs *)

(** X13.  [project5_decompress] is idempotent on its output, for an
    input of fewer than [INT_MAX] tokens, the range in which the ranks
    are the [int]s of the program: run on the text it printed for the
    input, which has the same tokens, it prints that text again, with the
    same empty [cerr] and exit status 0. *)
Theorem decompress_idempotent inputContent iteration iteration' :
  let text := unwords (tokenize inputContent) in
  Z.of_nat (length (tokenize inputContent)) < INT_MAX →
  iterates (tokenFrequency inputContent) iteration →
  iterates (tokenFrequency text) iteration' →
  tokenize text = tokenize inputContent ∧
  Decompress.main inputContent iteration = Outcome [Str text; Endl] [] 0 ∧
  Decompress.main text iteration' = Outcome [Str text; Endl] [] 0.
Proof.
  intros text _ Hit Hit'.
  split; [apply tokenize_unwords, tokenize_tokens|].
  split; [by apply main_pipeline|].
  rewrite (main_pipeline _ _ Hit'). unfold text.
  by rewrite tokenize_unwords by apply tokenize_tokens.
Qed.

Lemma decompress_idempotent_witness :
  Z.of_nat (length (tokenize " a  b ")) < INT_MAX ∧
  iterates (tokenFrequency " a  b ") (map_to_list (tokenFrequency " a  b ")) ∧
  iterates (tokenFrequency (unwords (tokenize " a  b ")))
           (map_to_list (tokenFrequency (unwords (tokenize " a  b ")))) ∧
  Decompress.main (unwords (tokenize " a  b "))
    (map_to_list (tokenFrequency (unwords (tokenize " a  b "))))
  = Outcome [Str (unwords (tokenize " a  b ")); Endl] [] 0.
Proof.
  split; [reflexivity|].
  split; [unfold iterates; reflexivity|].
  split; [unfold iterates; reflexivity|].
  refine (proj2 (proj2 (decompress_idempotent " a  b "
                   (map_to_list (tokenFrequency " a  b "))
                   (map_to_list
                      (tokenFrequency (unwords (tokenize " a  b "))))
                   _ _ _))).
  - reflexivity.
  - unfold iterates; reflexivity.
  - unfold iterates; reflexivity.
Defined.

(** X14.  [project5] writes, for every input: each entry of the sorted
    vector followed by a space, a line break, the line of ten asterisks,
    the rank of each token of the input in input order, each followed by
    a space, and a line break; it writes nothing to [cerr] and exits
    with status 0. *)
Theorem project5_output inputContent iteration :
  iterates (tokenFrequency inputContent) iteration →
  let sortedTokens := std_sort iteration in
  let rank t := default 0 (tokenPosition sortedTokens !! t) in
  Project5.main inputContent iteration
  = Outcome
      (mjoin ((λ pair, [Str pair.1; Str " "]) <$> sortedTokens)
         ++ [Endl; Str "**********"; Endl]
         ++ mjoin ((λ t, [Int (rank t); Str " "]) <$> tokenize inputContent)
         ++ [Endl])
      [] 0.
Proof.
  intros Hit. simpl. unfold Project5.main.
  rewrite print_and_encode_output. cbv zeta.
  rewrite (encode_pipeline _ _ Hit). simpl.
  by rewrite <-list_fmap_compose.
Qed.

Lemma project5_output_witness :
  iterates (tokenFrequency "b a b") (map_to_list (tokenFrequency "b a b")) ∧
  Project5.main "b a b" (map_to_list (tokenFrequency "b a b"))
  = Outcome
      (mjoin ((λ pair : string * Z, [Str pair.1; Str " "])
                <$> std_sort (map_to_list (tokenFrequency "b a b")))
         ++ [Endl; Str "**********"; Endl]
         ++ mjoin ((λ t, [Int (default 0
                                 (tokenPosition
                                    (std_sort
                                       (map_to_list (tokenFrequency "b a b")))
                                  !! t)); Str " "])
                     <$> tokenize "b a b")
         ++ [Endl])
      [] 0.
Proof.
  split; [unfold iterates; reflexivity|].
  refine (project5_output "b a b" (map_to_list (tokenFrequency "b a b")) _).
  unfold iterates; reflexivity.
Defined.

Example project5_example :
  Project5.main "b a b" (map_to_list (tokenFrequency "b a b"))
  = Outcome [Str "b"; Str " "; Str "a"; Str " "; Endl; Str "**********";
             Endl; Int 1; Str " "; Int 2; Str " "; Int 1; Str " "; Endl]
            [] 0.
Proof. vm_compute. reflexivity. Qed.
